(** * Anagram dictionary (anagram_kata/Source.cpp)

    A shallow embedding of the anagram key computation and of the
    dictionary built on it, followed by the properties of the two.

    - [text], [anagram_key] are [std::basic_string<char>]: sequences of
      8-bit code units, here [string] (a list of [ascii]).
    - [text_set] is [std::set<text>]: a finite set of texts, here
      [gset string]; its in-order traversal is [text_set_iterate].
    - [anagram_dictionary] is [std::map<anagram_key, text_set>], here
      [gmap string (gset string)].
    - The functions that take the dictionary by reference are written in a
      small state monad [M] over the dictionary.

    Source.backup.cpp is an earlier variant of the same program, in which
    [compute_anagram] has no "not usable" result; the embedding follows
    Source.cpp, and the functions of the variant are in the module
    [Backup]. *)

From Stdlib Require Import Ascii String NArith.
From stdpp Require Import gmap gmultiset strings sorting list fin_maps.

(** ** <cctype>, in the "C" locale

    [main] never calls [setlocale], so the classification in force is the
    one of the "C" locale: the digits and the 52 letters of ASCII.  A code
    unit above 127 is in no class (on a platform whose [char] is signed such
    a unit reaches [std::isalnum] as a negative [int], outside the domain of
    the function; the model takes the units as 0..255, as the classification
    table does). *)
Module Cctype.

Definition code (c : ascii) : N := N_of_ascii c.

Definition isdigit (c : ascii) : bool := (48 <=? code c)%N && (code c <=? 57)%N.
Definition isupper (c : ascii) : bool := (65 <=? code c)%N && (code c <=? 90)%N.
Definition islower (c : ascii) : bool := (97 <=? code c)%N && (code c <=? 122)%N.
Definition isalpha (c : ascii) : bool := isupper c || islower c.
Definition isalnum (c : ascii) : bool := isalpha c || isdigit c.

Definition tolower (c : ascii) : ascii :=
  if isupper c then ascii_of_N (code c + 32) else c.

End Cctype.
Export Cctype.

(** ** Types of Source.cpp *)

Abbreviation anagram_key := string (only parsing).
Abbreviation text := string (only parsing).
Abbreviation text_set := (gset string) (only parsing).
Abbreviation anagram_dictionary := (gmap string (gset string)) (only parsing).

(** The characters of a text, first to last. *)
Definition chars (t : text) : list ascii := list_ascii_of_string t.

(** ** <algorithm> on a string of [char] *)

(** [operator<] on the code units that reach the sort.  Only alphanumeric
    units do, all below 128, so the signedness of [char] plays no part. *)
Definition char_le (c1 c2 : ascii) : Prop := (code c1 <= code c2)%N.

Global Instance char_le_dec : RelDecision char_le.
Proof. intros c1 c2. unfold char_le. apply _. Defined.

(** [std::ranges::copy_if(text, std::back_inserter(key), pred)] on an empty [key]. *)
Definition copy_if (pred : ascii → bool) (l : list ascii) : list ascii :=
  List.filter pred l.

(** [std::transform(begin(key), end(key), begin(key), f)]. *)
Definition transform (f : ascii → ascii) (key : list ascii) : list ascii :=
  f <$> key.

(** [std::ranges::sort(key)]: ascending by [operator<].  The standard leaves
    the algorithm open; [sort_unique] below shows that on characters the
    result does not depend on it. *)
Definition sort (key : list ascii) : list ascii := merge_sort char_le key.

(** ** compute_anagram (Source.cpp, lines 71-97) *)

Definition compute_anagram (t : text) : option anagram_key :=
  let key := copy_if isalnum (chars t) in
  match key with
  | [] => None
  | _ :: _ => Some (string_of_list_ascii (sort (transform tolower key)))
  end.

(** ** The dictionary as mutable state

    A call either returns a value and leaves a dictionary behind, or throws.
    The one exception the code can name is that of [std::optional::value]. *)

Inductive exception : Type := bad_optional_access.

Inductive outcome (A : Type) : Type :=
  | Returned (a : A) (d : gmap string (gset string))
  | Thrown (e : exception).
Arguments Returned {A} a d.
Arguments Thrown {A} e.

Definition M (A : Type) : Type := gmap string (gset string) → outcome A.

Definition ret {A} (a : A) : M A := λ d, Returned a d.

Definition bind {A B} (m : M A) (f : A → M B) : M B :=
  λ d, match m d with
       | Returned a d1 => f a d1
       | Thrown e => Thrown e
       end.

Notation "x ←ₘ m ; k" := (bind m (λ x, k))
  (at level 20, m at level 100, k at level 200, only parsing).

(** [o.value()] of a [std::optional]. *)
Definition optional_value {A} (o : option A) : M A :=
  λ d, match o with
       | Some a => Returned a d
       | None => Thrown bad_optional_access
       end.

(** [dictionary[key]]: creates an empty group when the key is absent and
    yields a reference to the group, modelled by the key of its slot. *)
Definition map_subscript (key : anagram_key) : M anagram_key :=
  λ d, match d !! key with
       | Some _ => Returned key d
       | None => Returned key (<[key := ∅]> d)
       end.

(** [group.insert(text)] on the group behind a reference; the [bool] is the
    second component of the [std::pair] that [std::set::insert] returns. *)
Definition set_insert (ref : anagram_key) (t : text) : M bool :=
  λ d, let group := default ∅ (d !! ref) in
       if decide (t ∈ group) then Returned false d
       else Returned true (<[ref := {[ t ]} ∪ group]> d).

(** [dictionary.find(key)] on the [const] dictionary, with [None] for [end()]. *)
Definition map_find (key : anagram_key) : M (option (gset string)) :=
  λ d, Returned (d !! key) d.

(** [std::set] traverses its elements in ascending order of [std::less<text>],
    the lexicographic order of [std::string] on unsigned code units. *)
Definition text_set_iterate (s : gset string) : list string :=
  merge_sort String.le (elements s).

(** ** insert_into_anagram_dictionary (Source.cpp, lines 99-115) *)

Definition insert_into_anagram_dictionary (t : text) : M bool :=
  let key := compute_anagram t in
  if decide (key = None) then ret false
  else
    k ←ₘ optional_value key;
    group ←ₘ map_subscript k;
    inserted ←ₘ set_insert group t;
    ret inserted.

(** ** fetch_matching_anagrams (Source.cpp, lines 117-130) *)

Definition fetch_matching_anagrams (t : text) : M (option (gset string)) :=
  let key := compute_anagram t in
  if decide (key = None) then ret None
  else
    k ←ₘ optional_value key;
    key_match ←ₘ map_find k;
    ret (match key_match with
         | Some group => if decide (group = ∅) then None else Some group
         | None => None
         end).

(** ** report_matching_anagrams (Source.cpp, lines 132-143), without the log lines *)

Definition report_matching_anagrams (t : text) : M bool :=
  matches ←ₘ fetch_matching_anagrams t;
  ret (bool_decide (is_Some matches)).

(** ** Sequences of calls on one dictionary *)

Inductive operation : Type :=
  | Insert (t : text)
  | Lookup (t : text).

Inductive answer : Type :=
  | Inserted (b : bool)
  | Matches (o : option (gset string)).

Definition perform (op : operation) : M answer :=
  match op with
  | Insert t => b ←ₘ insert_into_anagram_dictionary t; ret (Inserted b)
  | Lookup t => o ←ₘ fetch_matching_anagrams t; ret (Matches o)
  end.

Fixpoint run (ops : list operation) : M (list answer) :=
  match ops with
  | [] => ret []
  | op :: ops' => a ←ₘ perform op; rest ←ₘ run ops'; ret (a :: rest)
  end.

(** ** std::formatter<text_set> (Source.cpp, lines 28-61)

    The output iterator of the format context is the string written so far;
    [format_to] appends to it. *)

Definition format_to (out : string) (piece : string) : string := out +:+ piece.

(** [format_entries]: the first entry as it is, every later one after ", ". *)
Definition format_entries (collection : gset string) (out : string) : string :=
  match text_set_iterate collection with
  | [] => out
  | first :: rest =>
      foldl (λ out entry, format_to out (", " +:+ entry)) (format_to out first) rest
  end.

(** [format]: the entries between square brackets. *)
Definition format_text_set (collection : gset string) (out : string) : string :=
  format_to (format_entries collection (format_to out "[")) "]".

(** ** <istream>: a stream over a string buffer

    [rdbuf] holds the characters not yet read.  A string buffer never sets
    [badbit], so the state is [eofbit] and [failbit]. *)

Record istream : Type := Istream {
  rdbuf : list ascii;
  eofbit : bool;
  failbit : bool
}.

Definition good (stream : istream) : bool := negb (eofbit stream) && negb (failbit stream).
Definition eof (stream : istream) : bool := eofbit stream.

(** [std::isspace] in the classic locale: space, and the controls 9 to 13. *)
Definition isspace (c : ascii) : bool :=
  (code c =? 32)%N || ((9 <=? code c)%N && (code c <=? 13)%N).

(** What the sentry of a formatted input does under [skipws]. *)
Fixpoint skipws (buf : list ascii) : list ascii :=
  match buf with
  | c :: rest => if isspace c then skipws rest else buf
  | [] => []
  end.

(** The characters of one word and what follows them: extraction stops in
    front of the first white space, or at the end of the buffer. *)
Fixpoint extract_chars (buf : list ascii) : list ascii * list ascii :=
  match buf with
  | c :: rest =>
      if isspace c then ([], buf)
      else let '(word, rest') := extract_chars rest in (c :: word, rest')
  | [] => ([], [])
  end.

(** [input_stream >> text], for a [text] that is empty before the call.
    - On a stream that is not good the sentry sets [failbit] and nothing is read.
    - When only white space is left the sentry reaches the end: [eofbit] and
      [failbit].
    - Otherwise the word is read; [eofbit] is set when the word ran to the end
      of the buffer. *)
Definition extract (stream : istream) : string * istream :=
  if negb (good stream) then ("", Istream (rdbuf stream) (eofbit stream) true)
  else
    match skipws (rdbuf stream) with
    | [] => ("", Istream [] true true)
    | c :: buf =>
        let '(word, rest) := extract_chars (c :: buf) in
        (string_of_list_ascii word, Istream rest (bool_decide (rest = [])) false)
    end.

(** ** load_dictionary (Source.cpp, lines 145-156)

    The [while] loop, with a bound on the number of its iterations; [None]
    when the bound is reached before the loop has ended. *)

Fixpoint load_dictionary_loop (fuel : nat) (stream : istream) : M (option istream) :=
  match fuel with
  | 0 => ret None
  | S fuel' =>
      if negb (eof stream) && good stream then
        let '(t, stream') := extract stream in
        _ ←ₘ (if good stream' then insert_into_anagram_dictionary t else ret false);
        load_dictionary_loop fuel' stream'
      else ret (Some stream)
  end.

(** Every iteration but the last reads a character, and one more test of the
    condition ends the loop. *)
Definition load_dictionary_stream (stream : istream) : M (option istream) :=
  load_dictionary_loop (length (rdbuf stream) + 2) stream.

(** ** load_dictionary (Source.cpp, lines 158-171) *)

Definition newline : string := String "010" "".

(** The stream after the four [<<], [clear()] and [seekg(0)]. *)
Definition text_stream : istream :=
  Istream (chars ("bob" +:+ newline +:+ "god" +:+ newline +:+ "act" +:+ newline +:+ "dog"))
          false false.

Definition load_dictionary : M unit :=
  _ ←ₘ load_dictionary_stream text_stream;
  ret ().

(** ** main (Source.cpp, lines 174-197), on the dictionary it declares *)

Definition main : outcome Z :=
  (_ ←ₘ load_dictionary;
   _ ←ₘ insert_into_anagram_dictionary "Kayak";
   _ ←ₘ insert_into_anagram_dictionary "kayak";
   _ ←ₘ insert_into_anagram_dictionary "C	A	T	";
   _ ←ₘ insert_into_anagram_dictionary "***Cat***";
   _ ←ₘ insert_into_anagram_dictionary "dog";
   _ ←ₘ insert_into_anagram_dictionary "###";
   _ ←ₘ report_matching_anagrams "KAYAK";
   _ ←ₘ report_matching_anagrams "cat";
   _ ←ₘ report_matching_anagrams "act";
   _ ←ₘ report_matching_anagrams "GOD";
   _ ←ₘ report_matching_anagrams "unknown";
   _ ←ₘ report_matching_anagrams "###";
   ret 0%Z) ∅.

(** ** Source.backup.cpp: the earlier variant

    The same types and the same primitives; [compute_anagram] always yields a
    key, which is empty for a text without alphanumeric characters. *)
Module Backup.

(** compute_anagram (Source.backup.cpp, lines 108-129). *)
Definition compute_anagram (t : text) : anagram_key :=
  string_of_list_ascii (sort (transform tolower (copy_if isalnum (chars t)))).

(** insert_into_anagram_dictionary (Source.backup.cpp, lines 131-142). *)
Definition insert_into_anagram_dictionary (t : text) : M bool :=
  group ←ₘ map_subscript (compute_anagram t);
  inserted ←ₘ set_insert group t;
  ret inserted.

(** fetch_matching_anagrams (Source.backup.cpp, lines 144-152). *)
Definition fetch_matching_anagrams (t : text) : M (option (gset string)) :=
  key_match ←ₘ map_find (compute_anagram t);
  ret (match key_match with
       | Some group => if decide (group = ∅) then None else Some group
       | None => None
       end).

(** to_format (Source.backup.cpp, lines 154-170): the iterator is not
    advanced after the first entry has been written. *)
Definition to_format (matches : gset string) : string :=
  let output := "[" in
  let entries := text_set_iterate matches in
  let output :=
    match entries with
    | first :: _ => output +:+ first
    | [] => output
    end in
  let output := foldl (λ output entry, output +:+ ", " +:+ entry) output entries in
  output +:+ "]".

End Backup.

(** ** The words of the specification, for comparison with the code *)

(** "After discarding all non-alphanumeric characters and folding case to
    lowercase, the remaining characters" of a text. *)
Definition normalized (t : text) : list ascii :=
  tolower <$> List.filter isalnum (chars t).

(** Those characters as a multiset. *)
Definition char_multiset (t : text) : gmultiset ascii :=
  list_to_set_disj (normalized t).

(** A string every character of which satisfies [p]. *)
Definition all_chars (p : ascii → bool) (k : string) : Prop :=
  Forall (λ c, p c = true) (chars k).

(** A string in the canonical order: ascending by code point. *)
Definition canonical_order (k : string) : Prop := Sorted char_le (chars k).

(** No character of [k] is an upper-case letter (digits have no case). *)
Definition lowercase (k : string) : Prop :=
  Forall (λ c, isupper c = false) (chars k).

(** The group of a key: its entries, none when the key is absent. *)
Definition group_of (d : gmap string (gset string)) (key : string) : gset string :=
  default ∅ (d !! key).

(** Every key present in the dictionary maps to a non-empty group. *)
Definition every_group_nonempty (d : gmap string (gset string)) : Prop :=
  ∀ key group, d !! key = Some group → group ≠ ∅.

(** The texts that a sequence of calls inserts, in order. *)
Definition inserted_texts (ops : list operation) : list string :=
  omap (λ op, match op with Insert t => Some t | Lookup _ => None end) ops.

(** A word as [operator>>] reads it: not empty, without white space. *)
Definition is_word (w : string) : Prop :=
  w ≠ "" ∧ Forall (λ c, isspace c = false) (chars w).

(** A separator: a non-empty run of white space. *)
Definition is_separator (sep : list ascii) : Prop :=
  sep ≠ [] ∧ Forall (λ c, isspace c = true) sep.

(** The dictionary that one call leaves behind: an insertion of a usable text
    puts the text in the group of its key, every other call changes nothing. *)
Definition dictionary_after (d : gmap string (gset string)) (op : operation) :
    gmap string (gset string) :=
  match op with
  | Insert t =>
      match compute_anagram t with
      | Some key => <[key := {[ t ]} ∪ group_of d key]> d
      | None => d
      end
  | Lookup _ => d
  end.

(** The characters of a stream of words: white space in front, then every
    word with the separator that follows it, then a last word, possibly
    empty, that runs to the end of the stream. *)
Definition stream_of_words (lead : list ascii) (segments : list (string * list ascii))
    (last : string) : list ascii :=
  lead ++ concat ((λ s, chars s.1 ++ s.2) <$> segments) ++ chars last.

(** * Properties *)

(** ** Characters and sorting *)

Lemma code_inj c1 c2 : code c1 = code c2 → c1 = c2.
Proof.
  unfold code. intros H.
  rewrite <- (ascii_N_embedding c1), <- (ascii_N_embedding c2). by rewrite H.
Qed.

Global Instance char_le_trans : Transitive char_le.
Proof. intros c1 c2 c3. unfold char_le. lia. Qed.

Global Instance char_le_total : Total char_le.
Proof. intros c1 c2. unfold char_le. lia. Qed.

Global Instance char_le_antisymm : AntiSymm (=) char_le.
Proof. intros c1 c2 H1 H2. apply code_inj. unfold char_le in *. lia. Qed.

Lemma sort_Sorted key : Sorted char_le (sort key).
Proof. apply (Sorted_merge_sort char_le). Qed.

Lemma sort_Permutation key : sort key ≡ₚ key.
Proof. apply merge_sort_Permutation. Qed.

(** Whatever algorithm [std::ranges::sort] runs, its result on a string of
    characters is this one: the ascending arrangement is unique. *)
Lemma sort_unique key key' :
  Sorted char_le key' → key' ≡ₚ key → key' = sort key.
Proof.
  intros Hs Hp. apply (Sorted_unique char_le); [done | apply sort_Sorted |].
  by rewrite Hp, sort_Permutation.
Qed.

Lemma sort_perm_eq key1 key2 : sort key1 = sort key2 ↔ key1 ≡ₚ key2.
Proof.
  split.
  - intros H. by rewrite <- (sort_Permutation key1), H, sort_Permutation.
  - intros H. apply sort_unique; [apply sort_Sorted |].
    by rewrite sort_Permutation.
Qed.

Lemma sort_sorted_id key : Sorted char_le key → sort key = key.
Proof. intros H. symmetry. by apply sort_unique. Qed.

Lemma string_of_list_ascii_inj l1 l2 :
  string_of_list_ascii l1 = string_of_list_ascii l2 → l1 = l2.
Proof.
  intros H. rewrite <- (list_ascii_of_string_of_list_ascii l1), H.
  apply list_ascii_of_string_of_list_ascii.
Qed.

Lemma elements_list_to_set_disj (l : list ascii) :
  elements (list_to_set_disj l : gmultiset ascii) ≡ₚ l.
Proof.
  induction l as [|c l IH]; simpl.
  - by rewrite gmultiset_elements_empty.
  - by rewrite gmultiset_elements_disj_union, gmultiset_elements_singleton, IH.
Qed.

Lemma list_to_set_disj_eq_perm (l1 l2 : list ascii) :
  list_to_set_disj l1 =@{gmultiset ascii} list_to_set_disj l2 ↔ l1 ≡ₚ l2.
Proof.
  split; [|by intros ->].
  intros H. by rewrite <- (elements_list_to_set_disj l1), H, elements_list_to_set_disj.
Qed.

(** ** The classification, on examples and as intervals *)

Lemma isalnum_iff c :
  isalnum c = true ↔
    (48 ≤ code c ≤ 57)%N ∨ (65 ≤ code c ≤ 90)%N ∨ (97 ≤ code c ≤ 122)%N.
Proof.
  unfold isalnum, isalpha, isupper, islower, isdigit.
  rewrite !orb_true_iff, !andb_true_iff, !N.leb_le. tauto.
Qed.

(** What reaches the sort is plain ASCII. *)
Lemma isalnum_ascii c : isalnum c = true → (code c < 128)%N.
Proof. rewrite isalnum_iff. lia. Qed.

Lemma tolower_upper c :
  isupper c = true → code (tolower c) = (code c + 32)%N ∧ islower (tolower c) = true.
Proof.
  unfold tolower. intros H. rewrite H. revert H. unfold isupper, islower, code.
  rewrite andb_true_iff, !N.leb_le. intros [H1 H2].
  rewrite N_ascii_embedding by lia.
  split; [done|]. rewrite andb_true_iff, !N.leb_le. lia.
Qed.

Example tolower_letters :
  tolower "G" = "g"%char ∧ tolower "g" = "g"%char ∧ tolower "7" = "7"%char ∧
  tolower "#" = "#"%char.
Proof. repeat split. Qed.

(** A tab is the code unit 9, in no class. *)
Example chars_with_tabs :
  chars "C	A	T	" = ["C"; "009"; "A"; "009"; "T"; "009"]%char ∧
  isalnum "009" = false.
Proof. split; reflexivity. Qed.

Example compute_anagram_examples :
  compute_anagram "God" = Some "dgo" ∧
  compute_anagram "dog" = Some "dgo" ∧
  compute_anagram "Kayak" = compute_anagram "kayak" ∧
  compute_anagram "C	A	T	" = Some "act" ∧
  compute_anagram "***Cat***" = Some "act" ∧
  compute_anagram "###" = None ∧
  compute_anagram "" = None.
Proof. repeat split. Qed.

(** ** compute_anagram *)

(** The code of [compute_anagram], read through [normalized]. *)
Lemma compute_anagram_normalized t :
  compute_anagram t =
    match normalized t with
    | [] => None
    | _ :: _ => Some (string_of_list_ascii (sort (normalized t)))
    end.
Proof.
  unfold compute_anagram, normalized, copy_if, transform.
  by destruct (List.filter isalnum (chars t)).
Qed.

Lemma compute_anagram_eq_perm a b :
  compute_anagram a = compute_anagram b ↔ normalized a ≡ₚ normalized b.
Proof.
  rewrite !compute_anagram_normalized. split.
  - destruct (normalized a) as [|ca la] eqn:Ea, (normalized b) as [|cb lb] eqn:Eb;
      try done.
    intros [= H%string_of_list_ascii_inj]. by apply sort_perm_eq.
  - intros Hp. destruct (normalized a) as [|ca la] eqn:Ea.
    + by apply Permutation_nil_l in Hp as <-.
    + destruct (normalized b) as [|cb lb] eqn:Eb.
      * by apply Permutation_nil_r in Hp.
      * f_equal. f_equal. by apply sort_perm_eq.
Qed.

(** C1: two texts have the same result of [compute_anagram] if and only if
    their alphanumeric characters, folded to lower case, form the same
    multiset; and for two usable texts the two keys are equal if and only if
    those multisets are. *)
Theorem compute_anagram_same_key_iff_same_multiset (a b : text) :
  (compute_anagram a = compute_anagram b ↔ char_multiset a = char_multiset b) ∧
  (∀ ka kb, compute_anagram a = Some ka → compute_anagram b = Some kb →
            (ka = kb ↔ char_multiset a = char_multiset b)).
Proof.
  assert (compute_anagram a = compute_anagram b ↔ char_multiset a = char_multiset b) as H.
  { unfold char_multiset. by rewrite list_to_set_disj_eq_perm, compute_anagram_eq_perm. }
  split; [done|].
  intros ka kb Ha Hb. rewrite <- H, Ha, Hb. split; [by intros ->|by intros [= ->]].
Qed.

(** C2: [compute_anagram] keeps the alphanumeric characters of the text; it
    yields no key exactly when none is kept, and otherwise the key is the
    kept characters folded to lower case, arranged in ascending order of
    code point. *)
Theorem compute_anagram_filters_folds_sorts (t : text) :
  let kept := List.filter isalnum (chars t) in
  (compute_anagram t = None ↔ kept = []) ∧
  (∀ key, compute_anagram t = Some key ↔
          kept ≠ [] ∧ canonical_order key ∧ chars key ≡ₚ tolower <$> kept).
Proof.
  intros kept. unfold compute_anagram, copy_if, transform. fold kept.
  destruct kept as [|c kept'] eqn:Ek; split; try done.
  - intros key. split; [done | by intros [? _]].
  - intros key. unfold canonical_order, chars. split.
    + intros [= <-]. rewrite list_ascii_of_string_of_list_ascii.
      split; [done|]. split; [apply sort_Sorted | apply sort_Permutation].
    + intros (_ & Hs & Hp). f_equal.
      rewrite <- (sort_unique _ _ Hs Hp). apply string_of_list_ascii_of_string.
Qed.

Lemma filter_all_id (p : ascii → bool) l :
  Forall (λ c, p c = true) l → List.filter p l = l.
Proof. induction 1 as [|c l Hc _ IH]; simpl; [done|]. by rewrite Hc, IH. Qed.

Lemma tolower_not_upper c : isupper c = false → tolower c = c.
Proof. unfold tolower. by intros ->. Qed.

Lemma transform_tolower_id l :
  Forall (λ c, isupper c = false) l → transform tolower l = l.
Proof.
  unfold transform. induction 1 as [|c l Hc _ IH]; [done|].
  by rewrite fmap_cons, (tolower_not_upper _ Hc), IH.
Qed.

(** C9: a non-empty string that is alphanumeric throughout, has no upper-case
    letter and is in ascending order of code point is its own key. *)
Theorem compute_anagram_canonical_key_fixed (k : string) :
  k ≠ "" → all_chars isalnum k → lowercase k → canonical_order k →
  compute_anagram k = Some k.
Proof.
  unfold all_chars, lowercase, canonical_order. intros Hne Han Hlow Hs.
  unfold compute_anagram, copy_if. rewrite (filter_all_id _ _ Han).
  destruct (chars k) as [|c l] eqn:Ek.
  - destruct k; [done | discriminate Ek].
  - rewrite (transform_tolower_id _ Hlow), (sort_sorted_id _ Hs), <- Ek.
    f_equal. apply string_of_list_ascii_of_string.
Qed.

(** "123abc", the key of "c1b2a3", is its own key. *)
Lemma compute_anagram_canonical_key_fixed_witness :
  "123abc" ≠ "" ∧ all_chars isalnum "123abc" ∧ lowercase "123abc" ∧
  canonical_order "123abc" ∧ compute_anagram "123abc" = Some "123abc".
Proof.
  assert ("123abc" ≠ "") as H1 by discriminate.
  assert (all_chars isalnum "123abc") as H2 by (unfold all_chars; repeat constructor).
  assert (lowercase "123abc") as H3 by (unfold lowercase; repeat constructor).
  assert (canonical_order "123abc") as H4.
  { unfold canonical_order, char_le, chars. simpl.
    repeat constructor; vm_compute; discriminate. }
  exact (conj H1 (conj H2 (conj H3 (conj H4
           (compute_anagram_canonical_key_fixed "123abc" H1 H2 H3 H4))))).
Defined.

(** ** The dictionary operations, as equations *)

Lemma insert_not_usable t d :
  compute_anagram t = None →
  insert_into_anagram_dictionary t d = Returned false d.
Proof. intros H. unfold insert_into_anagram_dictionary. by rewrite H. Qed.

Lemma insert_usable t key d :
  compute_anagram t = Some key →
  insert_into_anagram_dictionary t d =
    if decide (t ∈ group_of d key) then Returned false d
    else Returned true (<[key := {[ t ]} ∪ group_of d key]> d).
Proof.
  intros H. unfold insert_into_anagram_dictionary, group_of. rewrite H.
  unfold bind, optional_value, map_subscript, set_insert, ret. simpl.
  destruct (d !! key) as [g|] eqn:Hd; simpl.
  - rewrite Hd. simpl. by destruct (decide (t ∈ g)).
  - rewrite lookup_insert_eq. simpl.
    rewrite !decide_False by set_solver. by rewrite insert_insert_eq.
Qed.

Lemma fetch_not_usable t d :
  compute_anagram t = None →
  fetch_matching_anagrams t d = Returned None d.
Proof. intros H. unfold fetch_matching_anagrams. by rewrite H. Qed.

Lemma fetch_usable t key d :
  compute_anagram t = Some key →
  fetch_matching_anagrams t d =
    Returned (match d !! key with
              | Some group => if decide (group = ∅) then None else Some group
              | None => None
              end) d.
Proof. intros H. unfold fetch_matching_anagrams. by rewrite H. Qed.

(** ** insert_into_anagram_dictionary *)

(** C3: for a text with a usable key, [insert_into_anagram_dictionary]
    returns [false] and leaves the dictionary as it was when the text is
    already in the group of the key, and otherwise returns [true] and adds
    the text itself to that group; inserted twice into the empty dictionary,
    the text gives [true], then [false], and a group of exactly one entry. *)
Theorem insert_usable_text (d : gmap string (gset string)) (t : text) (key : anagram_key) :
  compute_anagram t = Some key →
  (t ∈ group_of d key → insert_into_anagram_dictionary t d = Returned false d) ∧
  (t ∉ group_of d key →
     insert_into_anagram_dictionary t d =
       Returned true (<[key := {[ t ]} ∪ group_of d key]> d)) ∧
  (∃ d1 d2 group,
     insert_into_anagram_dictionary t ∅ = Returned true d1 ∧
     insert_into_anagram_dictionary t d1 = Returned false d2 ∧
     d2 !! key = Some group ∧ t ∈ group ∧ size group = 1).
Proof.
  intros Hk. split; [|split].
  - intros Hin. rewrite (insert_usable _ _ _ Hk). by rewrite decide_True.
  - intros Hin. rewrite (insert_usable _ _ _ Hk). by rewrite decide_False.
  - exists {[ key := {[ t ]} ]}, {[ key := {[ t ]} ]}, {[ t ]}.
    rewrite !(insert_usable _ _ _ Hk). unfold group_of.
    rewrite lookup_empty, lookup_singleton_eq. cbn [default from_option].
    rewrite decide_False by set_solver. rewrite decide_True by set_solver.
    rewrite union_empty_r_L, insert_empty.
    repeat split; [set_solver | apply size_singleton].
Qed.

(** "Kayak" has the key "aakky"; the dictionary of the witness already holds
    "kayak" under it. *)
Lemma insert_usable_text_witness :
  compute_anagram "Kayak" = Some "aakky" ∧
  insert_into_anagram_dictionary "Kayak" {[ "aakky" := {[ "kayak" ]} ]} =
    Returned true {[ "aakky" := {[ "Kayak"; "kayak" ]} ]} ∧
  insert_into_anagram_dictionary "kayak" {[ "aakky" := {[ "kayak" ]} ]} =
    Returned false {[ "aakky" := {[ "kayak" ]} ]}.
Proof.
  split; [reflexivity|]. split.
  - destruct (insert_usable_text {[ "aakky" := {[ "kayak" ]} ]} "Kayak" "aakky")
      as (_ & H & _); [reflexivity|].
    rewrite H; [vm_compute; reflexivity | vm_compute; intros H'; discriminate H'].
  - destruct (insert_usable_text {[ "aakky" := {[ "kayak" ]} ]} "kayak" "aakky")
      as (H & _ & _); [reflexivity|].
    apply H. vm_compute. reflexivity.
Defined.

(** C4: for a text without a usable key, [insert_into_anagram_dictionary]
    returns [false] (it does not throw) and the dictionary is the one it was
    given, with no entry created. *)
Theorem insert_not_usable_text (d : gmap string (gset string)) (t : text) :
  compute_anagram t = None →
  insert_into_anagram_dictionary t d = Returned false d.
Proof. apply insert_not_usable. Qed.

Lemma insert_not_usable_text_witness :
  compute_anagram "###" = None ∧
  insert_into_anagram_dictionary "###" {[ "dgo" := {[ "dog"; "god" ]} ]} =
    Returned false {[ "dgo" := {[ "dog"; "god" ]} ]}.
Proof.
  split; [reflexivity|].
  apply insert_not_usable_text. reflexivity.
Defined.

(** ** fetch_matching_anagrams *)

(** C5: [fetch_matching_anagrams] returns; its result is no match exactly
    when the text has no usable key, or the key is absent from the
    dictionary, or the key is present with an empty group; the result is
    never an empty group; and for "###" it is no match in every dictionary. *)
Theorem fetch_no_match_iff (d : gmap string (gset string)) (t : text) :
  (∃ r, fetch_matching_anagrams t d = Returned r d ∧
        (r = None ↔
           compute_anagram t = None ∨
           ∃ key, compute_anagram t = Some key ∧
                  (d !! key = None ∨ d !! key = Some ∅)) ∧
        r ≠ Some ∅) ∧
  fetch_matching_anagrams "###" d = Returned None d.
Proof.
  split; [|by apply fetch_not_usable].
  destruct (compute_anagram t) as [key|] eqn:Hk.
  - rewrite (fetch_usable _ _ _ Hk). eexists. split; [done|].
    destruct (d !! key) as [g|] eqn:Hd.
    + destruct (decide (g = ∅)) as [->|Hg].
      * split; [|done]. split; [|done]. intros _. right. exists key. auto.
      * split; [|congruence]. split; [done|].
        intros [?|(key' & [= <-] & [?|?])]; congruence.
    + split; [|done]. split; [|done]. intros _. right. exists key. auto.
  - rewrite (fetch_not_usable _ _ Hk). eexists. split; [done|].
    split; [|done]. split; [auto | done].
Qed.

Lemma fetch_leaves_dictionary_aux t d :
  ∃ r, fetch_matching_anagrams t d = Returned r d.
Proof.
  unfold fetch_matching_anagrams.
  destruct (compute_anagram t) as [key|]; simpl; by eexists.
Qed.

(** C7: [fetch_matching_anagrams] returns with the dictionary it was given,
    for every dictionary and every text: whether the lookup finds a group or
    not, no entry is created, removed or changed. *)
Theorem fetch_leaves_dictionary (d : gmap string (gset string)) (t : text) :
  ∃ r, fetch_matching_anagrams t d = Returned r d.
Proof. apply fetch_leaves_dictionary_aux. Qed.

(** C10: when [insert_into_anagram_dictionary] returns [true] for a text,
    [fetch_matching_anagrams] on the resulting dictionary and the same text
    returns a group that contains the text itself. *)
Theorem fetch_after_insert (d d' : gmap string (gset string)) (t : text) :
  insert_into_anagram_dictionary t d = Returned true d' →
  ∃ group, fetch_matching_anagrams t d' = Returned (Some group) d' ∧ t ∈ group.
Proof.
  destruct (compute_anagram t) as [key|] eqn:Hk.
  - rewrite (insert_usable _ _ _ Hk), (fetch_usable _ _ _ Hk).
    destruct (decide (t ∈ group_of d key)); [done|].
    intros [= <-]. rewrite lookup_insert_eq.
    exists ({[ t ]} ∪ group_of d key).
    rewrite decide_False by set_solver. split; [done | set_solver].
  - by rewrite (insert_not_usable _ _ Hk).
Qed.

(** The text with its tabs is stored as it is, under the key "act". *)
Lemma fetch_after_insert_witness :
  insert_into_anagram_dictionary "C	A	T	" {[ "act" := {[ "act" ]} ]} =
    Returned true {[ "act" := {[ "C	A	T	"; "act" ]} ]} ∧
  ∃ group,
    fetch_matching_anagrams "C	A	T	" {[ "act" := {[ "C	A	T	"; "act" ]} ]} =
      Returned (Some group) {[ "act" := {[ "C	A	T	"; "act" ]} ]} ∧
    "C	A	T	" ∈ group.
Proof.
  split; [vm_compute; reflexivity|].
  apply (fetch_after_insert {[ "act" := {[ "act" ]} ]}).
  vm_compute. reflexivity.
Defined.

(** ** The index invariant *)

Lemma every_group_nonempty_empty : every_group_nonempty ∅.
Proof. intros key group. by rewrite lookup_empty. Qed.

Lemma insert_preserves_nonempty t d :
  every_group_nonempty d →
  ∃ b d', insert_into_anagram_dictionary t d = Returned b d' ∧
          every_group_nonempty d'.
Proof.
  intros Hd. destruct (compute_anagram t) as [key|] eqn:Hk.
  - rewrite (insert_usable _ _ _ Hk).
    destruct (decide (t ∈ group_of d key)); [by eauto|].
    do 2 eexists. split; [done|]. intros key' group.
    rewrite lookup_insert. case_decide.
    + intros [= <-]. set_solver.
    + apply Hd.
  - rewrite (insert_not_usable _ _ Hk). eauto.
Qed.

Lemma perform_preserves_nonempty op d :
  every_group_nonempty d →
  ∃ a d', perform op d = Returned a d' ∧ every_group_nonempty d'.
Proof.
  intros Hd. destruct op as [t|t]; unfold perform, bind, ret.
  - destruct (insert_preserves_nonempty t d Hd) as (b & d' & -> & Hd'). eauto.
  - destruct (fetch_leaves_dictionary_aux t d) as [r ->]. eauto.
Qed.

Lemma run_preserves_nonempty ops d :
  every_group_nonempty d →
  ∃ answers d', run ops d = Returned answers d' ∧ every_group_nonempty d'.
Proof.
  revert d. induction ops as [|op ops IH]; intros d Hd; simpl.
  - unfold ret. eauto.
  - unfold bind at 1.
    destruct (perform_preserves_nonempty op d Hd) as (a & d1 & -> & Hd1).
    unfold bind at 1.
    destruct (IH d1 Hd1) as (rest & d2 & -> & Hd2).
    unfold ret. eauto.
Qed.

(** C6: every sequence of insertions and lookups, run from the empty
    dictionary, returns, and in the dictionary it leaves every key present
    maps to a non-empty group. *)
Theorem run_every_group_nonempty (ops : list operation) :
  ∃ answers d, run ops ∅ = Returned answers d ∧ every_group_nonempty d.
Proof. apply run_preserves_nonempty, every_group_nonempty_empty. Qed.

(** ** The scenario of the four words *)

(** C8: after "god", "dog", "act" and "bob" are inserted into the empty
    dictionary, the lookup of "GOD" returns the group of "dog" and "god",
    traversed in that order; the lookups of "cat" and of "act" return the
    group of "act" alone; the lookup of "bob" returns the group of "bob"
    alone. *)
Theorem four_words_scenario :
  ∃ d,
    run [Insert "god"; Insert "dog"; Insert "act"; Insert "bob"] ∅ =
      Returned [Inserted true; Inserted true; Inserted true; Inserted true] d ∧
    fetch_matching_anagrams "GOD" d = Returned (Some {[ "dog"; "god" ]}) d ∧
    text_set_iterate {[ "dog"; "god" ]} = ["dog"; "god"] ∧
    fetch_matching_anagrams "cat" d = Returned (Some {[ "act" ]}) d ∧
    fetch_matching_anagrams "act" d = Returned (Some {[ "act" ]}) d ∧
    text_set_iterate {[ "act" ]} = ["act"] ∧
    fetch_matching_anagrams "bob" d = Returned (Some {[ "bob" ]}) d ∧
    text_set_iterate {[ "bob" ]} = ["bob"].
Proof.
  exists {[ "dgo" := {[ "dog"; "god" ]}; "act" := {[ "act" ]}; "bbo" := {[ "bob" ]} ]}.
  repeat split; vm_compute; reflexivity.
Qed.

(** ** The subscript of [std::map] *)

(** Unlike [find], the subscript of [std::map] leaves an empty group behind
    when the key is absent; [fetch_matching_anagrams] does not use it. *)
Example map_subscript_creates_group :
  map_subscript "act" ∅ = Returned "act" {[ "act" := ∅ ]}.
Proof. reflexivity. Qed.

(** * Further properties of the code *)

(** ** compute_anagram: the shape of a key *)

Lemma isupper_tolower c : isupper (tolower c) = false.
Proof.
  destruct (isupper c) eqn:Hu.
  - destruct (tolower_upper c Hu) as [Hc _]. unfold isupper. rewrite Hc.
    revert Hu. unfold isupper. rewrite andb_true_iff, andb_false_iff, !N.leb_le, !N.leb_gt.
    lia.
  - by rewrite (tolower_not_upper c Hu).
Qed.

Lemma isalnum_tolower c : isalnum (tolower c) = isalnum c.
Proof.
  destruct (isupper c) eqn:Hu.
  - destruct (tolower_upper c Hu) as [_ Hl].
    unfold isalnum, isalpha. by rewrite Hu, Hl, orb_true_r.
  - by rewrite (tolower_not_upper c Hu).
Qed.

Lemma chars_of_key t k :
  compute_anagram t = Some k → normalized t ≠ [] ∧ chars k = sort (normalized t).
Proof.
  rewrite compute_anagram_normalized.
  destruct (normalized t) as [|c l] eqn:En; [done|]. intros [= <-].
  split; [done|]. apply list_ascii_of_string_of_list_ascii.
Qed.

Lemma chars_nil_inv (k : string) : chars k = [] → k = "".
Proof. by destruct k. Qed.

Lemma normalized_all_folded t :
  Forall (λ c, isalnum c = true ∧ isupper c = false) (normalized t).
Proof.
  unfold normalized. apply Forall_fmap, Forall_forall. intros c Hc.
  apply list_elem_of_In, filter_In in Hc as [_ Hc]. simpl.
  by rewrite isalnum_tolower, isupper_tolower.
Qed.

Lemma key_all_folded t k :
  compute_anagram t = Some k →
  Forall (λ c, isalnum c = true ∧ isupper c = false) (chars k).
Proof.
  intros [_ ->]%chars_of_key. unfold sort.
  rewrite merge_sort_Permutation. apply normalized_all_folded.
Qed.

(** X1: a key is never empty, consists of digits and lower-case letters only,
    and is in ascending order of code point. *)
Theorem compute_anagram_key_shape (t : text) (k : anagram_key) :
  compute_anagram t = Some k →
  k ≠ "" ∧
  Forall (λ c, islower c || isdigit c = true) (chars k) ∧
  canonical_order k.
Proof.
  intros Hk. destruct (chars_of_key _ _ Hk) as [Hne Hc]. split; [|split].
  - intros ->. simpl in Hc. symmetry in Hc.
    apply Hne, Permutation_nil_r. by rewrite <- (sort_Permutation _), Hc.
  - eapply Forall_impl; [apply (key_all_folded _ _ Hk)|].
    intros c [Han Hup]. simpl. unfold isalnum, isalpha in Han.
    rewrite Hup in Han. by simpl in Han.
  - unfold canonical_order. rewrite Hc. apply sort_Sorted.
Qed.

Lemma compute_anagram_key_shape_witness :
  compute_anagram "Route 66!" = Some "66eortu" ∧
  "66eortu" ≠ "" ∧
  Forall (λ c, islower c || isdigit c = true) (chars "66eortu") ∧
  canonical_order "66eortu".
Proof.
  split; [reflexivity|].
  apply (compute_anagram_key_shape "Route 66!"). reflexivity.
Defined.

(** X2: [compute_anagram] is idempotent: the key of a key is that key. *)
Theorem compute_anagram_idempotent (t : text) :
  compute_anagram t ≫= compute_anagram = compute_anagram t.
Proof.
  destruct (compute_anagram t) as [k|] eqn:Hk; [|done]. simpl.
  destruct (chars_of_key _ _ Hk) as [Hne Hc].
  pose proof (key_all_folded _ _ Hk) as Hf.
  unfold compute_anagram, copy_if.
  rewrite filter_all_id by (eapply Forall_impl; [exact Hf | by intros c [? _]]).
  destruct (chars k) as [|c l] eqn:Ek.
  - exfalso. apply Hne, Permutation_nil_r. by rewrite <- (sort_Permutation _), <- Hc.
  - rewrite transform_tolower_id by (eapply Forall_impl; [exact Hf | by intros ? [_ ?]]).
    rewrite sort_sorted_id by (rewrite Hc; apply sort_Sorted).
    rewrite <- Ek. f_equal. apply string_of_list_ascii_of_string.
Qed.

Lemma length_chars (t : string) : length (chars t) = String.length t.
Proof. induction t as [|c t IH]; simpl; [done | by rewrite IH]. Qed.

(** X3: the key has one character for each alphanumeric character of the
    text: its length is their number, at least one and at most the length of
    the text. *)
Theorem compute_anagram_key_length (t : text) (k : anagram_key) :
  compute_anagram t = Some k →
  String.length k = length (List.filter isalnum (chars t)) ∧
  1 ≤ String.length k ≤ String.length t.
Proof.
  intros [Hne Hc]%chars_of_key.
  assert (String.length k = length (List.filter isalnum (chars t))) as Hlen.
  { rewrite <- length_chars, Hc. unfold sort.
    rewrite merge_sort_Permutation. unfold normalized. by rewrite length_fmap. }
  split; [done|]. rewrite Hlen. split.
  - unfold normalized in Hne. destruct (List.filter isalnum (chars t)); [done | simpl; lia].
  - rewrite <- length_chars. apply filter_length_le.
Qed.

Lemma compute_anagram_key_length_witness :
  compute_anagram "***Cat***" = Some "act" ∧
  String.length "act" = length (List.filter isalnum (chars "***Cat***")) ∧
  1 ≤ String.length "act" ≤ String.length "***Cat***".
Proof.
  split; [reflexivity|].
  apply (compute_anagram_key_length "***Cat***"). reflexivity.
Defined.

(** ** compute_anagram: what does not change the key *)

Lemma List_filter_Permutation (p : ascii → bool) l1 l2 :
  l1 ≡ₚ l2 → List.filter p l1 ≡ₚ List.filter p l2.
Proof.
  induction 1 as [|c l1 l2 _ IH|c1 c2 l|l1 l2 l3 _ IH1 _ IH2]; simpl.
  - done.
  - destruct (p c); by rewrite IH.
  - destruct (p c1), (p c2); try done. apply perm_swap.
  - by rewrite IH1.
Qed.

Lemma filter_tolower l :
  List.filter isalnum (tolower <$> l) = tolower <$> List.filter isalnum l.
Proof.
  induction l as [|c l IH]; [done|]. rewrite fmap_cons. simpl.
  rewrite isalnum_tolower. destruct (isalnum c); by rewrite IH.
Qed.

Lemma tolower_idemp c : tolower (tolower c) = tolower c.
Proof. apply tolower_not_upper, isupper_tolower. Qed.

Lemma chars_app (a b : string) : chars (a +:+ b) = chars a ++ chars b.
Proof. induction a as [|c a IH]; [done|]. simpl. by rewrite <- IH. Qed.

Lemma normalized_app a b : normalized (a +:+ b) = normalized a ++ normalized b.
Proof. unfold normalized. by rewrite chars_app, List.filter_app, fmap_app. Qed.

Lemma compute_anagram_None t : compute_anagram t = None ↔ normalized t = [].
Proof. rewrite compute_anagram_normalized. by destruct (normalized t). Qed.

(** X4: two texts made of the same characters, in any order, have the same
    key (or both have none). *)
Theorem compute_anagram_rearranged (a b : text) :
  chars a ≡ₚ chars b → compute_anagram a = compute_anagram b.
Proof.
  intros Hp. apply compute_anagram_eq_perm. unfold normalized.
  by apply fmap_Permutation, List_filter_Permutation.
Qed.

Lemma compute_anagram_rearranged_witness :
  chars "listen" ≡ₚ chars "silent" ∧
  compute_anagram "listen" = compute_anagram "silent".
Proof.
  assert (chars "listen" ≡ₚ chars "silent") as Hp.
  { apply (bool_decide_unpack _). vm_compute. exact I. }
  exact (conj Hp (compute_anagram_rearranged "listen" "silent" Hp)).
Defined.

(** X5: two texts that differ only in the case of their letters have the same
    key. *)
Theorem compute_anagram_ignores_case (a b : text) :
  tolower <$> chars a = tolower <$> chars b →
  compute_anagram a = compute_anagram b.
Proof.
  intros H. apply compute_anagram_eq_perm. unfold normalized.
  by rewrite <- !filter_tolower, H.
Qed.

Lemma compute_anagram_ignores_case_witness :
  tolower <$> chars "KaYaK 7" = tolower <$> chars "kAyAk 7" ∧
  compute_anagram "KaYaK 7" = compute_anagram "kAyAk 7".
Proof.
  split; [reflexivity|].
  apply compute_anagram_ignores_case. reflexivity.
Defined.

(** X6: a text without a usable key, put in front of another text or after
    it, does not change the key of that text. *)
Theorem compute_anagram_padding (a b : text) :
  compute_anagram b = None →
  compute_anagram (a +:+ b) = compute_anagram a ∧
  compute_anagram (b +:+ a) = compute_anagram a.
Proof.
  intros Hb%compute_anagram_None.
  split; apply compute_anagram_eq_perm; rewrite normalized_app, Hb.
  - by rewrite app_nil_r.
  - done.
Qed.

Lemma compute_anagram_padding_witness :
  compute_anagram "***" = None ∧
  compute_anagram ("Cat" +:+ "***") = compute_anagram "Cat" ∧
  compute_anagram ("***" +:+ "Cat") = compute_anagram "Cat".
Proof.
  split; [reflexivity|].
  apply compute_anagram_padding. reflexivity.
Defined.

(** ** insert_into_anagram_dictionary: what one insertion changes *)

Lemma group_of_Some d key g : d !! key = Some g → group_of d key = g.
Proof. unfold group_of. by intros ->. Qed.

Lemma group_of_elem d key t :
  t ∈ group_of d key → d !! key = Some (group_of d key).
Proof.
  unfold group_of. destruct (d !! key) as [g|]; [done|]. simpl. set_solver.
Qed.

(** Whether the text was there or not, the dictionary after the call has the
    text in the group of its key. *)
Lemma insert_final t key d :
  compute_anagram t = Some key →
  insert_into_anagram_dictionary t d =
    Returned (bool_decide (t ∉ group_of d key))
             (<[key := {[ t ]} ∪ group_of d key]> d).
Proof.
  intros Hk. rewrite (insert_usable _ _ _ Hk).
  destruct (decide (t ∈ group_of d key)) as [Hin|Hin].
  - rewrite bool_decide_eq_false_2 by auto. f_equal.
    symmetry. apply insert_id. rewrite (group_of_elem _ _ _ Hin).
    f_equal. symmetry. by apply subseteq_union_1_L, singleton_subseteq_l.
  - by rewrite bool_decide_eq_true_2.
Qed.

Lemma insert_returns t d :
  ∃ b d', insert_into_anagram_dictionary t d = Returned b d'.
Proof.
  destruct (compute_anagram t) as [key|] eqn:Hk.
  - rewrite (insert_final _ _ _ Hk). eauto.
  - rewrite (insert_not_usable _ _ Hk). eauto.
Qed.

Lemma group_of_insert d key key' g :
  group_of (<[key := g]> d) key' = if decide (key = key') then g else group_of d key'.
Proof. unfold group_of. rewrite lookup_insert. by case_decide. Qed.

Lemma group_of_after_insert t0 b d d' :
  insert_into_anagram_dictionary t0 d = Returned b d' →
  ∀ key t, t ∈ group_of d' key ↔
           t ∈ group_of d key ∨ (t = t0 ∧ compute_anagram t0 = Some key).
Proof.
  destruct (compute_anagram t0) as [k|] eqn:Hk.
  - rewrite (insert_final _ _ _ Hk). intros [= Hb <-] key t.
    rewrite group_of_insert. destruct (decide (k = key)) as [<-|Hkey].
    + rewrite elem_of_union, elem_of_singleton.
      split; [intros [->|?]; auto | intros [?|[-> _]]; auto].
    + split; [auto|]. intros [?|[_ [= ?]]]; done.
  - rewrite (insert_not_usable _ _ Hk). intros [= Hb <-] key t.
    split; [auto|]. intros [?|[_ [=]]]. done.
Qed.

(** X7: an insertion leaves every other key of the dictionary as it was,
    present or absent, with the group it had. *)
Theorem insert_other_keys (d d' : gmap string (gset string)) (t : text) (b : bool)
    (key' : anagram_key) :
  insert_into_anagram_dictionary t d = Returned b d' →
  compute_anagram t ≠ Some key' →
  d' !! key' = d !! key'.
Proof.
  destruct (compute_anagram t) as [k|] eqn:Hk.
  - rewrite (insert_final _ _ _ Hk). intros [= Hb <-] Hne.
    apply lookup_insert_ne. congruence.
  - rewrite (insert_not_usable _ _ Hk). by intros [= Hb <-].
Qed.

Lemma insert_other_keys_witness :
  ∃ d d' : gmap string (gset string),
    d = {[ "act" := {[ "cat" ]} ]} ∧
    d' = {[ "act" := {[ "cat" ]}; "dgo" := {[ "god" ]} ]} ∧
    insert_into_anagram_dictionary "god" d = Returned true d' ∧
    compute_anagram "god" ≠ Some "act" ∧
    d' !! "act" = d !! "act".
Proof.
  assert (insert_into_anagram_dictionary "god" {[ "act" := {[ "cat" ]} ]} =
            Returned true {[ "act" := {[ "cat" ]}; "dgo" := {[ "god" ]} ]}) as H1
    by (vm_compute; reflexivity).
  assert (compute_anagram "god" ≠ Some "act") as H2 by discriminate.
  do 2 eexists. split; [reflexivity|]. split; [reflexivity|].
  exact (conj H1 (conj H2 (insert_other_keys _ _ _ _ _ H1 H2))).
Defined.

(** X8: an insertion removes nothing, and changes the dictionary exactly when
    it returns [true]; the group of the key then has one entry more, the
    text. *)
Theorem insert_only_adds (d d' : gmap string (gset string)) (t : text) (b : bool) :
  insert_into_anagram_dictionary t d = Returned b d' →
  (∀ key, group_of d key ⊆ group_of d' key) ∧
  (b = false → d' = d) ∧
  (b = true →
     ∃ key, compute_anagram t = Some key ∧ (t ∉ group_of d key) ∧
            d' !! key = Some ({[ t ]} ∪ group_of d key) ∧
            size (group_of d' key) = S (size (group_of d key))).
Proof.
  intros H. split; [|split].
  - intros key t'. rewrite (group_of_after_insert _ _ _ _ H). auto.
  - intros ->. destruct (compute_anagram t) as [k|] eqn:Hk.
    + rewrite (insert_usable _ _ _ Hk) in H.
      destruct (decide (t ∈ group_of d k)); [by injection H as <- | discriminate H].
    + rewrite (insert_not_usable _ _ Hk) in H. by injection H as <-.
  - intros ->. destruct (compute_anagram t) as [k|] eqn:Hk.
    + rewrite (insert_usable _ _ _ Hk) in H.
      destruct (decide (t ∈ group_of d k)) as [|Hin]; [done|].
      injection H as <-. exists k. split; [done|]. split; [done|].
      rewrite lookup_insert_eq. split; [done|].
      rewrite group_of_insert, decide_True by done.
      rewrite size_union by set_solver. by rewrite size_singleton.
    + by rewrite (insert_not_usable _ _ Hk) in H.
Qed.

Lemma insert_only_adds_witness :
  insert_into_anagram_dictionary "god" {[ "dgo" := {[ "dog" ]} ]} =
    Returned true {[ "dgo" := {[ "dog"; "god" ]} ]} ∧
  size (group_of {[ "dgo" := {[ "dog"; "god" ]} ]} "dgo") =
    S (size (group_of {[ "dgo" := {[ "dog" ]} ]} "dgo")).
Proof.
  assert (insert_into_anagram_dictionary "god" {[ "dgo" := {[ "dog" ]} ]} =
            Returned true {[ "dgo" := {[ "dog"; "god" ]} ]}) as H1
    by (vm_compute; reflexivity).
  split; [exact H1|].
  destruct (insert_only_adds _ _ _ _ H1) as (_ & _ & H).
  destruct (H eq_refl) as (key & Hk & _ & _ & Hs).
  injection Hk as <-. exact Hs.
Defined.

(** X9: an insertion repeated on the dictionary it has just left returns
    [false] and changes nothing, whatever the first one returned. *)
Theorem insert_twice (d d' : gmap string (gset string)) (t : text) (b : bool) :
  insert_into_anagram_dictionary t d = Returned b d' →
  insert_into_anagram_dictionary t d' = Returned false d'.
Proof.
  destruct (compute_anagram t) as [k|] eqn:Hk.
  - rewrite (insert_final _ _ _ Hk). intros [= Hb <-].
    rewrite (insert_usable _ _ _ Hk), group_of_insert.
    rewrite (decide_True (P := k = k)) by done.
    rewrite decide_True; [done|]. by apply elem_of_union_l, elem_of_singleton.
  - rewrite !(insert_not_usable _ _ Hk). by intros [= Hb <-].
Qed.

Lemma insert_twice_witness :
  insert_into_anagram_dictionary "Kayak" {[ "aakky" := {[ "kayak" ]} ]} =
    Returned true {[ "aakky" := {[ "Kayak"; "kayak" ]} ]} ∧
  insert_into_anagram_dictionary "Kayak" {[ "aakky" := {[ "Kayak"; "kayak" ]} ]} =
    Returned false {[ "aakky" := {[ "Kayak"; "kayak" ]} ]}.
Proof.
  assert (insert_into_anagram_dictionary "Kayak" {[ "aakky" := {[ "kayak" ]} ]} =
            Returned true {[ "aakky" := {[ "Kayak"; "kayak" ]} ]}) as H1
    by (vm_compute; reflexivity).
  exact (conj H1 (insert_twice _ _ _ _ H1)).
Defined.

(** ** Sequences of calls: what the dictionary holds *)

Lemma perform_after op d : ∃ a, perform op d = Returned a (dictionary_after d op).
Proof.
  destruct op as [t|t]; unfold perform, bind, ret, dictionary_after.
  - destruct (compute_anagram t) as [k|] eqn:Hk.
    + rewrite (insert_final _ _ _ Hk). eauto.
    + rewrite (insert_not_usable _ _ Hk). eauto.
  - destruct (fetch_leaves_dictionary_aux t d) as [r ->]. eauto.
Qed.

Lemma run_cons op ops d a d1 :
  perform op d = Returned a d1 →
  run (op :: ops) d =
    match run ops d1 with
    | Returned rest d2 => Returned (a :: rest) d2
    | Thrown e => Thrown e
    end.
Proof. intros H. simpl. unfold bind at 1. rewrite H. done. Qed.

Lemma run_after ops d :
  ∃ answers, run ops d = Returned answers (foldl dictionary_after d ops).
Proof.
  revert d. induction ops as [|op ops IH]; intros d.
  - by exists [].
  - destruct (perform_after op d) as [a Ha]. rewrite (run_cons _ _ _ _ _ Ha).
    destruct (IH (dictionary_after d op)) as [rest ->]. simpl. eauto.
Qed.

Lemma dictionary_after_swap d x y :
  dictionary_after (dictionary_after d x) y = dictionary_after (dictionary_after d y) x.
Proof.
  destruct x as [t1|t1], y as [t2|t2]; try done. simpl.
  destruct (compute_anagram t1) as [k1|] eqn:Hk1,
           (compute_anagram t2) as [k2|] eqn:Hk2; try done.
  rewrite !group_of_insert. destruct (decide (k1 = k2)) as [<-|Hne].
  - rewrite decide_True by done. rewrite !insert_insert_eq. f_equal.
    rewrite !assoc_L by apply _. f_equal. apply comm_L, _.
  - rewrite decide_False by done. by apply insert_insert_ne.
Qed.

(** X10: the dictionary that a sequence of insertions and lookups leaves
    does not depend on the order of the calls. *)
Theorem run_order_irrelevant (ops1 ops2 : list operation)
    (d : gmap string (gset string)) :
  ops1 ≡ₚ ops2 →
  ∃ answers1 answers2 d',
    run ops1 d = Returned answers1 d' ∧ run ops2 d = Returned answers2 d'.
Proof.
  intros Hp.
  destruct (run_after ops1 d) as [a1 H1], (run_after ops2 d) as [a2 H2].
  exists a1, a2, (foldl dictionary_after d ops1). split; [done|].
  rewrite H2. f_equal. clear H1 H2 a1 a2. revert d.
  induction Hp as [|x l1 l2 _ IH|x y l|l1 l2 l3 _ IH1 _ IH2]; intros d; simpl.
  - done.
  - apply IH.
  - by rewrite dictionary_after_swap.
  - by rewrite IH2, IH1.
Qed.

Lemma run_order_irrelevant_witness :
  [Insert "god"; Lookup "dog"; Insert "dog"] ≡ₚ [Insert "dog"; Insert "god"; Lookup "dog"] ∧
  ∃ answers1 answers2 d',
    run [Insert "god"; Lookup "dog"; Insert "dog"] ∅ = Returned answers1 d' ∧
    run [Insert "dog"; Insert "god"; Lookup "dog"] ∅ = Returned answers2 d'.
Proof.
  assert ([Insert "god"; Lookup "dog"; Insert "dog"] ≡ₚ
          [Insert "dog"; Insert "god"; Lookup "dog"]) as Hp.
  { apply (Permutation_trans (l' := [Insert "god"; Insert "dog"; Lookup "dog"])).
    - apply Permutation_skip, perm_swap.
    - apply perm_swap. }
  exact (conj Hp (run_order_irrelevant _ _ ∅ Hp)).
Defined.

Lemma elem_of_inserted_texts_cons t op ops :
  t ∈ inserted_texts (op :: ops) ↔ op = Insert t ∨ t ∈ inserted_texts ops.
Proof.
  unfold inserted_texts. destruct op as [t0|t0]; simpl.
  - rewrite elem_of_cons. split; [intros [->|H]; auto | intros [[= ->]|H]; auto].
  - split; [auto | by intros [?|?]].
Qed.

Lemma group_of_dictionary_after d op key t :
  t ∈ group_of (dictionary_after d op) key ↔
    t ∈ group_of d key ∨ (op = Insert t ∧ compute_anagram t = Some key).
Proof.
  destruct op as [t0|t0]; simpl.
  - destruct (compute_anagram t0) as [k|] eqn:Hk.
    + rewrite group_of_insert. destruct (decide (k = key)) as [<-|Hne].
      * rewrite elem_of_union, elem_of_singleton.
        split; [intros [->|?]; auto | intros [?|[[= ->] _]]; auto].
      * split; [auto|]. intros [?|[[= ->] ?]]; [done | congruence].
    + split; [auto|]. intros [?|[[= ->] ?]]; [done | congruence].
  - split; [auto | by intros [?|[? _]]].
Qed.

Lemma group_of_foldl ops d key t :
  t ∈ group_of (foldl dictionary_after d ops) key ↔
    t ∈ group_of d key ∨ (t ∈ inserted_texts ops ∧ compute_anagram t = Some key).
Proof.
  revert d. induction ops as [|op ops IH]; intros d; cbn [foldl].
  - unfold inserted_texts. simpl. rewrite elem_of_nil. tauto.
  - rewrite IH, group_of_dictionary_after, elem_of_inserted_texts_cons. tauto.
Qed.

(** X11: after a sequence of calls, the group of a key holds what it held
    before and, besides, exactly the inserted texts that have this key: every
    text is filed under its own key, verbatim, and under no other. *)
Theorem run_groups (ops : list operation) (d : gmap string (gset string)) :
  ∃ answers d',
    run ops d = Returned answers d' ∧
    ∀ key t, t ∈ group_of d' key ↔
             t ∈ group_of d key ∨
             (t ∈ inserted_texts ops ∧ compute_anagram t = Some key).
Proof.
  destruct (run_after ops d) as [answers H].
  exists answers, (foldl dictionary_after d ops). split; [exact H|]. intros key t. apply group_of_foldl.
Qed.

Lemma group_of_empty key : group_of ∅ key = ∅.
Proof. unfold group_of. by rewrite lookup_empty. Qed.

(** What [fetch_matching_anagrams] returns, read through [group_of]. *)
Lemma fetch_result q d :
  ∃ r, fetch_matching_anagrams q d = Returned r d ∧
       ∀ g, r = Some g ↔
            ∃ key, compute_anagram q = Some key ∧ g = group_of d key ∧ g ≠ ∅.
Proof.
  destruct (compute_anagram q) as [k|] eqn:Hk.
  - rewrite (fetch_usable _ _ _ Hk). eexists. split; [done|]. intros g. split.
    + intros Hr. exists k. split; [done|]. unfold group_of.
      destruct (d !! k) as [g'|]; [|done].
      destruct (decide (g' = ∅)); [done|]. by injection Hr as <-.
    + intros (key & [= <-] & -> & Hne). unfold group_of in *.
      destruct (d !! k) as [g'|]; simpl in *; [|by destruct Hne].
      by rewrite decide_False.
  - rewrite (fetch_not_usable _ _ Hk). eexists. split; [done|]. intros g.
    split; [done|]. by intros (key & [=] & _).
Qed.

Lemma fetch_after_run ops q :
  ∃ answers d r,
    run ops ∅ = Returned answers d ∧
    fetch_matching_anagrams q d = Returned r d ∧
    (∀ g, r = Some g →
          ∀ t, t ∈ g ↔ t ∈ inserted_texts ops ∧ compute_anagram t = compute_anagram q) ∧
    (is_Some r ↔
       ∃ t, t ∈ inserted_texts ops ∧ is_Some (compute_anagram q) ∧
            compute_anagram t = compute_anagram q).
Proof.
  destruct (run_after ops ∅) as [answers Hrun].
  destruct (fetch_result q (foldl dictionary_after ∅ ops)) as (r & Hf & Hr).
  exists answers, (foldl dictionary_after ∅ ops), r.
  split; [exact Hrun|]. split; [exact Hf|].
  assert (∀ key t, t ∈ group_of (foldl dictionary_after ∅ ops) key ↔
                   t ∈ inserted_texts ops ∧ compute_anagram t = Some key) as Hg.
  { intros key t. rewrite group_of_foldl, group_of_empty, elem_of_empty. tauto. }
  split.
  - intros g (key & Hk & -> & _)%Hr t. by rewrite Hg, Hk.
  - split.
    + intros [g (key & Hk & -> & Hne)%Hr].
      apply set_choose_L in Hne as [t Ht]. apply Hg in Ht as [Hin Ht].
      exists t. rewrite Hk. eauto.
    + intros (t & Hin & [key Hk] & Ht).
      exists (group_of (foldl dictionary_after ∅ ops) key).
      apply Hr. exists key. split; [done|]. split; [done|].
      intros He. apply (not_elem_of_empty (C := gset string) t).
      rewrite <- He. apply Hg. split; [done | congruence].
Qed.

(** X12: after any sequence of calls on the empty dictionary, a lookup
    returns, when it returns a group, exactly the inserted texts whose key is
    the key of the query; it returns no group exactly when the query has no
    key or no inserted text has its key. *)
Theorem lookup_after_run (ops : list operation) (q : text) :
  ∃ answers d r,
    run ops ∅ = Returned answers d ∧
    fetch_matching_anagrams q d = Returned r d ∧
    (∀ g, r = Some g →
          ∀ t, t ∈ g ↔ t ∈ inserted_texts ops ∧ compute_anagram t = compute_anagram q) ∧
    (r = None ↔
       ¬ ∃ t, t ∈ inserted_texts ops ∧ is_Some (compute_anagram q) ∧
              compute_anagram t = compute_anagram q).
Proof.
  destruct (fetch_after_run ops q) as (answers & d & r & Hrun & Hf & Hg & Hs).
  exists answers, d, r. split; [done|]. split; [done|]. split; [done|].
  rewrite <- Hs. apply eq_None_not_Some.
Qed.

(** ** report_matching_anagrams *)

Lemma report_result q d r :
  fetch_matching_anagrams q d = Returned r d →
  report_matching_anagrams q d = Returned (bool_decide (is_Some r)) d.
Proof. intros H. unfold report_matching_anagrams, bind. by rewrite H. Qed.

(** X13: after any sequence of calls on the empty dictionary,
    [report_matching_anagrams] returns [true] exactly when the text has a key
    and some inserted text has the same key; it leaves the dictionary as it
    was. *)
Theorem report_after_run (ops : list operation) (q : text) :
  ∃ answers d b,
    run ops ∅ = Returned answers d ∧
    report_matching_anagrams q d = Returned b d ∧
    (b = true ↔
       ∃ t, t ∈ inserted_texts ops ∧ is_Some (compute_anagram q) ∧
            compute_anagram t = compute_anagram q).
Proof.
  destruct (fetch_after_run ops q) as (answers & d & r & Hrun & Hf & _ & Hs).
  exists answers, d, (bool_decide (is_Some r)).
  split; [done|]. split; [by apply report_result|].
  by rewrite bool_decide_eq_true.
Qed.

(** ** insert_into_anagram_dictionary, after a sequence of calls *)

(** X14: after any sequence of calls on the empty dictionary, an insertion
    returns [true] exactly when the text has a key and has not been inserted
    before. *)
Theorem insert_after_run (ops : list operation) (t : text) :
  ∃ answers d b d',
    run ops ∅ = Returned answers d ∧
    insert_into_anagram_dictionary t d = Returned b d' ∧
    (b = true ↔ is_Some (compute_anagram t) ∧ t ∉ inserted_texts ops).
Proof.
  destruct (run_after ops ∅) as [answers Hrun].
  exists answers, (foldl dictionary_after ∅ ops).
  destruct (compute_anagram t) as [k|] eqn:Hk.
  - do 2 eexists. split; [done|]. split; [by apply insert_final|].
    rewrite bool_decide_eq_true, group_of_foldl, group_of_empty, elem_of_empty.
    split.
    + intros Hn. split; [done|]. tauto.
    + intros [_ Hn] [[]|[? _]]. tauto.
  - do 2 eexists. split; [done|]. split; [by apply insert_not_usable|].
    split; [done|]. by intros [[? [=]] _].
Qed.

(** ** operator>> on a stream *)

Lemma skipws_spaces lead buf :
  Forall (λ c, isspace c = true) lead → skipws (lead ++ buf) = skipws buf.
Proof. induction 1 as [|c lead Hc _ IH]; simpl; [done|]. by rewrite Hc. Qed.

Lemma skipws_nil lead : Forall (λ c, isspace c = true) lead → skipws lead = [].
Proof. intros H. rewrite <- (app_nil_r lead). by rewrite skipws_spaces. Qed.

Lemma skipws_length buf : length (skipws buf) ≤ length buf.
Proof.
  induction buf as [|c buf IH]; simpl; [done|].
  destruct (isspace c); simpl; lia.
Qed.

Lemma extract_chars_app buf :
  (extract_chars buf).1 ++ (extract_chars buf).2 = buf.
Proof.
  induction buf as [|c buf IH]; simpl; [done|].
  destruct (isspace c); [done|].
  destruct (extract_chars buf) as [word rest]. simpl in *. by rewrite IH.
Qed.

(** A word is read whole, up to the white space or the end that follows it. *)
Lemma extract_chars_word word rest :
  Forall (λ c, isspace c = false) word →
  (rest = [] ∨ ∃ c rest', rest = c :: rest' ∧ isspace c = true) →
  extract_chars (word ++ rest) = (word, rest).
Proof.
  intros Hw Hrest. induction Hw as [|c word Hc _ IH]; simpl.
  - destruct Hrest as [->|(c & rest' & -> & Hc)]; simpl; [done | by rewrite Hc].
  - by rewrite Hc, IH.
Qed.

Lemma extract_word lead w rest :
  Forall (λ c, isspace c = true) lead →
  is_word w →
  (rest = [] ∨ ∃ c rest', rest = c :: rest' ∧ isspace c = true) →
  extract (Istream (lead ++ chars w ++ rest) false false) =
    (w, Istream rest (bool_decide (rest = [])) false).
Proof.
  intros Hlead [Hne Hw] Hrest. unfold extract, good.
  cbn [rdbuf eofbit failbit negb andb]. rewrite (skipws_spaces _ _ Hlead).
  pose proof (extract_chars_word _ _ Hw Hrest) as He.
  destruct (chars w) as [|c l] eqn:Ew; [by apply chars_nil_inv in Ew|].
  assert (isspace c = false) as Hc by (by inversion Hw).
  rewrite <- app_comm_cons in *. cbn [skipws]. rewrite Hc, He, <- Ew.
  unfold chars. by rewrite string_of_list_ascii_of_string.
Qed.

Lemma extract_at_end lead :
  Forall (λ c, isspace c = true) lead →
  extract (Istream lead false false) = ("", Istream [] true true).
Proof. intros Hlead. unfold extract. simpl. by rewrite (skipws_nil _ Hlead). Qed.

(** When the stream is still good after [>>], a word has been read and the
    buffer is shorter. *)
Lemma extract_good stream t stream' :
  extract stream = (t, stream') → good stream' = true →
  is_word t ∧ length (rdbuf stream') < length (rdbuf stream).
Proof.
  unfold extract. destruct (good stream); simpl.
  - pose proof (skipws_length (rdbuf stream)) as Hlen.
    destruct (skipws (rdbuf stream)) as [|c buf] eqn:Es.
    + by intros [= <- <-].
    + assert (isspace c = false) as Hc.
      { clear Hlen. induction (rdbuf stream) as [|c' l IH]; simpl in Es; [done|].
        destruct (isspace c') eqn:Hc'; [auto|]. by injection Es as <- _. }
      pose proof (extract_chars_app (c :: buf)) as Happ.
      assert (Forall (λ c, isspace c = false) (extract_chars (c :: buf)).1) as Hw.
      { generalize (c :: buf). clear. intros l.
        induction l as [|c l IH]; simpl; [done|].
        destruct (isspace c) eqn:Hc; [done|].
        destruct (extract_chars l). simpl in *. by constructor. }
      simpl in Happ, Hw. simpl extract_chars. rewrite Hc in Happ, Hw |- *.
      destruct (extract_chars buf) as [word rest]. simpl in *.
      intros [= <- <-] _. simpl. split.
      * split; [done|]. unfold chars. simpl.
        by rewrite list_ascii_of_string_of_list_ascii.
      * apply (f_equal length) in Happ. simpl in *.
        rewrite length_app in Happ. lia.
  - intros [= <- <-]. unfold good. simpl. by rewrite andb_false_r.
Qed.

(** ** load_dictionary on a stream *)

Lemma insert_after t d :
  ∃ b, insert_into_anagram_dictionary t d = Returned b (dictionary_after d (Insert t)).
Proof.
  simpl. destruct (compute_anagram t) as [k|] eqn:Hk.
  - rewrite (insert_final _ _ _ Hk). eauto.
  - rewrite (insert_not_usable _ _ Hk). eauto.
Qed.

(** One turn of the loop that inserts the word it has read. *)
Lemma load_loop_insert fuel stream t stream' d :
  eof stream = false → good stream = true →
  extract stream = (t, stream') → good stream' = true →
  load_dictionary_loop (S fuel) stream d =
    load_dictionary_loop fuel stream' (dictionary_after d (Insert t)).
Proof.
  intros He Hg Hx Hg'. cbn [load_dictionary_loop]. rewrite He, Hg, Hx, Hg'.
  cbn [negb andb]. unfold bind at 1. by destruct (insert_after t d) as [b ->].
Qed.

(** The last turn: the stream is no longer good after [>>], nothing is
    inserted and the loop ends. *)
Lemma load_loop_last fuel stream t stream' d :
  eof stream = false → good stream = true →
  extract stream = (t, stream') → good stream' = false →
  load_dictionary_loop (S (S fuel)) stream d = Returned (Some stream') d.
Proof.
  intros He Hg Hx Hg'. cbn [load_dictionary_loop]. rewrite He, Hg, Hx, Hg'.
  cbn [negb andb]. unfold bind, ret. by rewrite andb_false_r.
Qed.

Lemma load_loop_not_entered fuel stream d :
  negb (eof stream) && good stream = false →
  load_dictionary_loop (S fuel) stream d = Returned (Some stream) d.
Proof. intros H. cbn [load_dictionary_loop]. by rewrite H. Qed.

Lemma load_loop_total fuel : ∀ stream d,
  length (rdbuf stream) + 2 ≤ fuel →
  ∃ words stream',
    Forall is_word words ∧ good stream' = false ∧
    load_dictionary_loop fuel stream d =
      Returned (Some stream') (foldl dictionary_after d (Insert <$> words)).
Proof.
  induction fuel as [|fuel IH]; intros stream d Hfuel; [lia|].
  destruct (negb (eof stream) && good stream) eqn:Hcond.
  - apply andb_true_iff in Hcond as [He%negb_true_iff Hg].
    destruct (extract stream) as [t stream1] eqn:Hx.
    destruct (good stream1) eqn:Hg1.
    + destruct (extract_good _ _ _ Hx Hg1) as [Hw Hlen].
      destruct (IH stream1 (dictionary_after d (Insert t))) as (words & stream' & ? & ? & Hl);
        [lia|].
      exists (t :: words), stream'. split; [by constructor|]. split; [done|].
      by rewrite (load_loop_insert _ _ _ _ _ He Hg Hx Hg1), Hl.
    + exists [], stream1. split; [done|]. split; [done|].
      destruct fuel as [|fuel]; [lia|].
      by rewrite (load_loop_last _ _ _ _ _ He Hg Hx Hg1).
  - exists [], stream. split; [done|]. split.
    + destruct (good stream) eqn:Hg; [|done]. exfalso. revert Hcond Hg.
      unfold good, eof. by destruct (eofbit stream).
    + by rewrite (load_loop_not_entered _ _ _ Hcond).
Qed.

Lemma load_loop_more_fuel fuel : ∀ fuel' stream d stream' d',
  fuel ≤ fuel' →
  load_dictionary_loop fuel stream d = Returned (Some stream') d' →
  load_dictionary_loop fuel' stream d = Returned (Some stream') d'.
Proof.
  induction fuel as [|fuel IH]; intros fuel' stream d stream' d' Hle; [done|].
  destruct fuel' as [|fuel']; [lia|]. cbn [load_dictionary_loop].
  destruct (negb (eof stream) && good stream); [|done].
  destruct (extract stream) as [t stream1]. unfold bind.
  destruct (good stream1).
  - destruct (insert_after t d) as [b ->]. apply IH. lia.
  - unfold ret. apply IH. lia.
Qed.

(** X15: [load_dictionary] returns for every stream and every dictionary:
    the loop ends within one turn per character of the stream and two more,
    with the same result for every larger bound, and nothing is thrown.  It
    leaves a stream that is no longer good, and what it has done to the
    dictionary is a sequence of insertions of words, each non-empty and
    without white space. *)
Theorem load_dictionary_stream_returns (stream : istream)
    (d : gmap string (gset string)) :
  ∃ words answers stream' d',
    load_dictionary_stream stream d = Returned (Some stream') d' ∧
    (∀ fuel, length (rdbuf stream) + 2 ≤ fuel →
             load_dictionary_loop fuel stream d = Returned (Some stream') d') ∧
    good stream' = false ∧
    Forall is_word words ∧
    run (Insert <$> words) d = Returned answers d'.
Proof.
  destruct (load_loop_total (length (rdbuf stream) + 2) stream d)
    as (words & stream' & Hw & Hg & Hl); [done|].
  destruct (run_after (Insert <$> words) d) as [answers Hrun].
  exists words, answers, stream', (foldl dictionary_after d (Insert <$> words)).
  split; [exact Hl|]. split; [|done].
  intros fuel Hfuel. by apply (load_loop_more_fuel _ _ _ _ _ _ Hfuel).
Qed.

Lemma separator_head sep rest :
  is_separator sep →
  ∃ c rest', sep ++ rest = c :: rest' ∧ isspace c = true.
Proof.
  intros [Hne Hs]. destruct sep as [|c sep]; [done|].
  exists c, (sep ++ rest). split; [done | by inversion Hs].
Qed.

Lemma load_loop_segments segments : ∀ lead last fuel d,
  Forall (λ c, isspace c = true) lead →
  Forall (λ s, is_word s.1 ∧ is_separator s.2) segments →
  Forall (λ c, isspace c = false) (chars last) →
  length segments + 2 ≤ fuel →
  load_dictionary_loop fuel (Istream (stream_of_words lead segments last) false false) d =
    Returned (Some (Istream [] true (bool_decide (last = ""))))
             (foldl dictionary_after d (Insert <$> segments.*1)).
Proof.
  unfold stream_of_words.
  induction segments as [|[w sep] segments IH]; intros lead last fuel d Hlead Hsegs Hlast Hfuel.
  - do 2 (destruct fuel as [|fuel]; [simpl in Hfuel; lia|]).
    cbn [fmap list_fmap concat foldl app].
    destruct (decide (last = "")) as [->|Hne].
    + change (chars "") with (@nil ascii). rewrite app_nil_r.
      by rewrite (load_loop_last fuel (Istream lead false false) _ _ d
                    eq_refl eq_refl (extract_at_end _ Hlead) eq_refl).
    + rewrite bool_decide_eq_false_2 by done.
      pose proof (extract_word lead last [] Hlead (conj Hne Hlast) (or_introl eq_refl)) as Hx.
      rewrite app_nil_r in Hx.
      by rewrite (load_loop_last fuel (Istream (lead ++ chars last) false false) _ _ d
                    eq_refl eq_refl Hx eq_refl).
  - apply Forall_cons in Hsegs as [[Hw Hsep] Hsegs].
    destruct fuel as [|fuel]; [simpl in Hfuel; lia|].
    cbn [fmap list_fmap concat foldl fst snd].
    destruct (separator_head sep (concat ((λ s, chars s.1 ++ s.2) <$> segments) ++ chars last) Hsep)
      as (c & rest' & Hrest & Hc).
    pose proof (extract_word lead w _ Hlead Hw
                  (or_intror (ex_intro _ c (ex_intro _ rest' (conj Hrest Hc))))) as Hx.
    rewrite bool_decide_eq_false_2 in Hx by (by rewrite Hrest).
    rewrite <- !app_assoc.
    rewrite (load_loop_insert fuel (Istream _ false false) _ _ d eq_refl eq_refl Hx eq_refl).
    apply IH; [by destruct Hsep | done | done | simpl in Hfuel; lia].
Qed.

Lemma length_segments lead segments last :
  Forall (λ s : string * list ascii, is_word s.1 ∧ is_separator s.2) segments →
  length segments ≤ length (stream_of_words lead segments last).
Proof.
  unfold stream_of_words. rewrite !length_app. intros Hsegs.
  assert (length segments ≤ length (concat ((λ s, chars s.1 ++ s.2) <$> segments))); [|lia].
  induction Hsegs as [|[w sep] segments [_ [Hne _]] _ IH]; [done|].
  rewrite fmap_cons. cbn [concat fst snd]. rewrite !length_app.
  destruct sep; [done|]. cbn [length]. lia.
Qed.

(** X16: on a stream of words, each followed by white space, and a last word
    that runs to the end of the stream, [load_dictionary] inserts the words
    that are followed by white space, in order, and does not insert the last
    one; it leaves the stream empty and at end of file, failed when there was
    no last word. *)
Theorem load_dictionary_stream_words (lead : list ascii)
    (segments : list (string * list ascii)) (last : string)
    (d : gmap string (gset string)) :
  Forall (λ c, isspace c = true) lead →
  Forall (λ s, is_word s.1 ∧ is_separator s.2) segments →
  Forall (λ c, isspace c = false) (chars last) →
  ∃ answers d',
    load_dictionary_stream (Istream (stream_of_words lead segments last) false false) d =
      Returned (Some (Istream [] true (bool_decide (last = "")))) d' ∧
    run (Insert <$> segments.*1) d = Returned answers d'.
Proof.
  intros Hlead Hsegs Hlast.
  destruct (run_after (Insert <$> segments.*1) d) as [answers Hrun].
  exists answers, (foldl dictionary_after d (Insert <$> segments.*1)).
  split; [|done]. unfold load_dictionary_stream. simpl.
  apply load_loop_segments; try done.
  pose proof (length_segments lead segments last Hsegs). lia.
Qed.

Lemma load_dictionary_stream_words_witness :
  Forall (λ c, isspace c = true) (chars "  ") ∧
  Forall (λ s : string * list ascii, is_word s.1 ∧ is_separator s.2)
         [("bob", chars newline); ("god", chars " 	 ")] ∧
  Forall (λ c, isspace c = false) (chars "dog") ∧
  ∃ answers d',
    load_dictionary_stream
      (Istream (stream_of_words (chars "  ")
                  [("bob", chars newline); ("god", chars " 	 ")] "dog") false false) ∅ =
      Returned (Some (Istream [] true (bool_decide ("dog" = "")))) d' ∧
    run (Insert <$> [("bob", chars newline); ("god", chars " 	 ")].*1) ∅ =
      Returned answers d'.
Proof.
  assert (Forall (λ c, isspace c = true) (chars "  ")) as H1
    by (repeat constructor).
  assert (Forall (λ s : string * list ascii, is_word s.1 ∧ is_separator s.2)
                 [("bob", chars newline); ("god", chars " 	 ")]) as H2.
  { repeat constructor; discriminate. }
  assert (Forall (λ c, isspace c = false) (chars "dog")) as H3
    by (repeat constructor).
  exact (conj H1 (conj H2 (conj H3
           (load_dictionary_stream_words _ _ _ ∅ H1 H2 H3)))).
Defined.

(** ** load_dictionary on its own stream, and [main] *)

Lemma text_stream_words :
  rdbuf text_stream =
    stream_of_words [] [("bob", chars newline); ("god", chars newline);
                        ("act", chars newline)] "dog".
Proof. reflexivity. Qed.

(** X17: [load_dictionary] does to every dictionary what the insertions of
    "bob", "god" and "act" do, in this order, and returns.  "dog", the last
    word of its stream, has no white space after it and is not inserted: it
    is in the dictionary afterwards only if it was there before. *)
Theorem load_dictionary_three_words (d : gmap string (gset string)) :
  ∃ answers d',
    load_dictionary d = Returned () d' ∧
    run [Insert "bob"; Insert "god"; Insert "act"] d = Returned answers d' ∧
    ("dog" ∈ group_of d' "dgo" ↔ "dog" ∈ group_of d "dgo").
Proof.
  destruct (run_after [Insert "bob"; Insert "god"; Insert "act"] d) as [answers Hrun].
  exists answers, (foldl dictionary_after d [Insert "bob"; Insert "god"; Insert "act"]).
  split; [|split; [done|]].
  - unfold load_dictionary, bind, load_dictionary_stream.
    replace text_stream with
      (Istream (stream_of_words [] [("bob", chars newline); ("god", chars newline);
                                    ("act", chars newline)] "dog") false false)
      by reflexivity.
    rewrite load_loop_segments; [done | done | | | simpl; lia].
    + repeat constructor; discriminate.
    + repeat constructor.
  - rewrite group_of_foldl. split; [|auto].
    intros [?|[Hin _]]; [done|]. exfalso. revert Hin.
    unfold inserted_texts. simpl. rewrite !elem_of_cons, elem_of_nil.
    intros [?|[?|[?|[]]]]; discriminate.
Qed.

(** [main] returns 0, with this dictionary at the end. *)
Example main_returns :
  main = Returned 0%Z
           {[ "aakky" := {[ "Kayak"; "kayak" ]};
              "act" := {[ "***Cat***"; "C	A	T	"; "act" ]};
              "bbo" := {[ "bob" ]};
              "dgo" := {[ "dog"; "god" ]} ]}.
Proof. vm_compute. reflexivity. Qed.

(** The calls of [main] after [load_dictionary], with what they return: the
    insertion of "dog" is the first one of this text. *)
Example main_scenario :
  ∃ d0 d,
    load_dictionary ∅ = Returned () d0 ∧
    run [Insert "Kayak"; Insert "kayak"; Insert "C	A	T	"; Insert "***Cat***";
         Insert "dog"; Insert "###";
         Lookup "KAYAK"; Lookup "cat"; Lookup "act"; Lookup "GOD";
         Lookup "unknown"; Lookup "###"] d0 =
      Returned [Inserted true; Inserted true; Inserted true; Inserted true;
                Inserted true; Inserted false;
                Matches (Some {[ "Kayak"; "kayak" ]});
                Matches (Some {[ "***Cat***"; "C	A	T	"; "act" ]});
                Matches (Some {[ "***Cat***"; "C	A	T	"; "act" ]});
                Matches (Some {[ "dog"; "god" ]});
                Matches None; Matches None] d ∧
    text_set_iterate {[ "Kayak"; "kayak" ]} = ["Kayak"; "kayak"] ∧
    text_set_iterate {[ "***Cat***"; "C	A	T	"; "act" ]} =
      ["***Cat***"; "C	A	T	"; "act"].
Proof.
  exists {[ "act" := {[ "act" ]}; "bbo" := {[ "bob" ]}; "dgo" := {[ "god" ]} ]},
         {[ "aakky" := {[ "Kayak"; "kayak" ]};
            "act" := {[ "***Cat***"; "C	A	T	"; "act" ]};
            "bbo" := {[ "bob" ]};
            "dgo" := {[ "dog"; "god" ]} ]}.
  repeat split; vm_compute; reflexivity.
Qed.

(** ** std::formatter<text_set> *)

Lemma string_app_assoc (a b c : string) : (a +:+ b) +:+ c = a +:+ (b +:+ c).
Proof.
  induction a as [|x a IH]; [done|].
  change (String x ((a +:+ b) +:+ c) = String x (a +:+ (b +:+ c))). by rewrite IH.
Qed.

Lemma format_entries_concat first rest out :
  foldl (λ out entry, format_to out (", " +:+ entry)) (format_to out first) rest =
    out +:+ String.concat ", " (first :: rest).
Proof.
  revert first out. induction rest as [|second rest IH]; intros first out.
  - done.
  - cbn [foldl].
    assert (format_to (format_to out first) (", " +:+ second) =
            format_to (out +:+ first +:+ ", ") second) as ->.
    { unfold format_to. by rewrite !string_app_assoc. }
    rewrite IH.
    change (String.concat ", " (first :: second :: rest))
      with (first +:+ ", " +:+ String.concat ", " (second :: rest)).
    by rewrite !string_app_assoc.
Qed.

Lemma text_set_iterate_elem (s : gset string) t : t ∈ text_set_iterate s ↔ t ∈ s.
Proof. unfold text_set_iterate. by rewrite merge_sort_Permutation, elem_of_elements. Qed.

Lemma text_set_iterate_NoDup (s : gset string) : NoDup (text_set_iterate s).
Proof. unfold text_set_iterate. rewrite merge_sort_Permutation. apply NoDup_elements. Qed.

Lemma text_set_iterate_Sorted (s : gset string) : Sorted String.le (text_set_iterate s).
Proof. apply (Sorted_merge_sort String.le). Qed.

(** X18: the formatter writes, after what is already in the output, the
    entries of the set between square brackets, separated by a comma and a
    space: every entry once, in ascending lexicographic order; for the empty
    set it writes the two brackets. *)
Theorem format_text_set_entries (s : gset string) (out : string) :
  format_text_set s out =
    out +:+ "[" +:+ String.concat ", " (text_set_iterate s) +:+ "]" ∧
  NoDup (text_set_iterate s) ∧
  (∀ t, t ∈ text_set_iterate s ↔ t ∈ s) ∧
  Sorted String.le (text_set_iterate s) ∧
  format_text_set ∅ out = out +:+ "[]".
Proof.
  split; [|split; [apply text_set_iterate_NoDup|
           split; [apply text_set_iterate_elem|
           split; [apply text_set_iterate_Sorted|]]]].
  - unfold format_text_set, format_entries.
    destruct (text_set_iterate s) as [|first rest].
    + unfold format_to. by rewrite !string_app_assoc.
    + rewrite format_entries_concat. unfold format_to.
      by rewrite !string_app_assoc.
  - unfold format_text_set, format_entries, text_set_iterate.
    rewrite elements_empty. change (merge_sort String.le []) with (@nil string).
    unfold format_to. by rewrite string_app_assoc.
Qed.

Example format_text_set_examples :
  format_text_set {[ "god"; "dog" ]} "" = "[dog, god]" ∧
  format_text_set {[ "kayak"; "Kayak" ]} "matches: " = "matches: [Kayak, kayak]" ∧
  format_text_set {[ "bob" ]} "" = "[bob]".
Proof. repeat split; vm_compute; reflexivity. Qed.

(** ** Source.backup.cpp *)

Lemma string_of_list_ascii_nil_inv l : string_of_list_ascii l = "" → l = [].
Proof. by destruct l. Qed.

Lemma sort_nil_inv l : sort l = [] → l = [].
Proof. intros H. apply Permutation_nil_r. by rewrite <- (sort_Permutation l), H. Qed.

Lemma backup_key_empty t :
  Backup.compute_anagram t = "" ↔ List.filter isalnum (chars t) = [].
Proof.
  unfold Backup.compute_anagram, copy_if, transform. split.
  - intros H%string_of_list_ascii_nil_inv%sort_nil_inv. by apply fmap_nil_inv in H.
  - by intros ->.
Qed.

Lemma backup_key_of t :
  compute_anagram t =
    (if decide (Backup.compute_anagram t = "") then None
     else Some (Backup.compute_anagram t)).
Proof.
  case_decide as He.
  - apply backup_key_empty in He. unfold compute_anagram, copy_if. by rewrite He.
  - assert (List.filter isalnum (chars t) ≠ []) as Hne by (by rewrite <- backup_key_empty).
    unfold compute_anagram, Backup.compute_anagram, copy_if in *.
    by destruct (List.filter isalnum (chars t)).
Qed.

(** X19: the two variants of [compute_anagram] agree on every text with an
    alphanumeric character; where Source.cpp has no key, the variant of
    Source.backup.cpp has the empty key, and only there. *)
Theorem backup_compute_anagram (t : text) :
  compute_anagram t =
    (if decide (Backup.compute_anagram t = "") then None
     else Some (Backup.compute_anagram t)).
Proof. apply backup_key_of. Qed.

Lemma backup_insert_eq t d :
  Backup.insert_into_anagram_dictionary t d =
    if decide (t ∈ group_of d (Backup.compute_anagram t)) then Returned false d
    else Returned true (<[Backup.compute_anagram t :=
                            {[ t ]} ∪ group_of d (Backup.compute_anagram t)]> d).
Proof.
  unfold Backup.insert_into_anagram_dictionary, group_of.
  unfold bind, map_subscript, set_insert, ret.
  destruct (d !! Backup.compute_anagram t) as [g|] eqn:Hd; simpl.
  - rewrite Hd. simpl. by destruct (decide (t ∈ g)).
  - rewrite lookup_insert_eq. simpl.
    rewrite !decide_False by apply not_elem_of_empty. by rewrite insert_insert_eq.
Qed.

Lemma backup_insert_final t d :
  Backup.insert_into_anagram_dictionary t d =
    Returned (bool_decide (t ∉ group_of d (Backup.compute_anagram t)))
             (<[Backup.compute_anagram t :=
                  {[ t ]} ∪ group_of d (Backup.compute_anagram t)]> d).
Proof.
  rewrite backup_insert_eq.
  destruct (decide (t ∈ group_of d (Backup.compute_anagram t))) as [Hin|Hin].
  - rewrite bool_decide_eq_false_2 by auto. f_equal.
    symmetry. apply insert_id. rewrite (group_of_elem _ _ _ Hin).
    f_equal. symmetry. by apply subseteq_union_1_L, singleton_subseteq_l.
  - by rewrite bool_decide_eq_true_2.
Qed.

(** X20: in Source.backup.cpp a text without alphanumeric characters is
    inserted all the same, under the empty key; any other such text, used as
    a query, then finds it. *)
Theorem backup_insert_symbols (t q : text) (d : gmap string (gset string)) :
  compute_anagram t = None → compute_anagram q = None →
  ∃ d',
    Backup.insert_into_anagram_dictionary t d =
      Returned (bool_decide (t ∉ group_of d "")) d' ∧
    d' !! "" = Some ({[ t ]} ∪ group_of d "") ∧
    Backup.fetch_matching_anagrams q d' = Returned (Some ({[ t ]} ∪ group_of d "")) d'.
Proof.
  rewrite !backup_key_of. intros Ht Hq.
  destruct (decide (Backup.compute_anagram t = "")) as [Ht'|]; [|done].
  destruct (decide (Backup.compute_anagram q = "")) as [Hq'|]; [|done].
  eexists. split; [|split].
  - rewrite backup_insert_final, Ht'. done.
  - by rewrite lookup_insert_eq.
  - unfold Backup.fetch_matching_anagrams, bind, map_find, ret.
    rewrite Hq', lookup_insert_eq. rewrite decide_False; [done|].
    intros He. apply (not_elem_of_empty (C := gset string) t).
    rewrite <- He. by apply elem_of_union_l, elem_of_singleton.
Qed.

Lemma backup_insert_symbols_witness :
  compute_anagram "###" = None ∧ compute_anagram "?!" = None ∧
  ∃ d',
    Backup.insert_into_anagram_dictionary "###" ∅ =
      Returned (bool_decide ("###" ∉ group_of ∅ "")) d' ∧
    d' !! "" = Some ({[ "###" ]} ∪ group_of ∅ "") ∧
    Backup.fetch_matching_anagrams "?!" d' =
      Returned (Some ({[ "###" ]} ∪ group_of ∅ "")) d'.
Proof.
  split; [reflexivity|]. split; [reflexivity|].
  apply backup_insert_symbols; reflexivity.
Defined.

Lemma backup_foldl_concat entries out :
  entries ≠ [] →
  foldl (λ output entry, output +:+ ", " +:+ entry) out entries =
    out +:+ ", " +:+ String.concat ", " entries.
Proof.
  revert out. induction entries as [|first rest IH]; intros out Hne; [done|].
  cbn [foldl]. destruct rest as [|second rest]; [done|].
  rewrite IH by done.
  change (String.concat ", " (first :: second :: rest))
    with (first +:+ ", " +:+ String.concat ", " (second :: rest)).
  by rewrite !string_app_assoc.
Qed.

(** X21: [to_format] of Source.backup.cpp writes the first entry of a
    non-empty set twice: once on its own, once more at the head of the
    list. *)
Theorem backup_to_format_repeats_first (matches : gset string) :
  Backup.to_format matches =
    match text_set_iterate matches with
    | [] => "[]"
    | first :: rest => "[" +:+ String.concat ", " (first :: first :: rest) +:+ "]"
    end.
Proof.
  unfold Backup.to_format. destruct (text_set_iterate matches) as [|first rest]; [done|].
  rewrite backup_foldl_concat by done.
  change (String.concat ", " (first :: first :: rest))
    with (first +:+ ", " +:+ String.concat ", " (first :: rest)).
  by rewrite !string_app_assoc.
Qed.

Example backup_to_format_examples :
  Backup.to_format {[ "god"; "dog" ]} = "[dog, dog, god]" ∧
  Backup.to_format {[ "bob" ]} = "[bob, bob]" ∧
  Backup.to_format ∅ = "[]".
Proof. repeat split; vm_compute; reflexivity. Qed.
